(** * Verification of [scripts/build_wordlists.py]

    The script extracts adjective and noun word lists from the WordNet
    corpus, normalises them with [unique_lower], and writes one text file
    per list.  This development embeds the script shallowly and proves the
    properties its specification states.

    Modelling conventions.
    - A Python [str] is a [string].  WordNet lemma names are ASCII text, and
      [lower] is Python's [str.lower] on ASCII text: it maps [A-Z] to [a-z]
      and leaves every other character as it is.
    - The [seen] set of [unique_lower] is a [gset string].
    - A Python [set] that is iterated (the candidate sets [adjs] and
      [nouns]) is determined by the sequence of its [add] calls; its
      iteration order is not fixed by the language (it depends on the
      per-process hash seed), so the order is a parameter [traverse]
      constrained only to enumerate the members once each.
    - The corpus library is external: a corpus maps a part of speech to the
      lemma groups [all_synsets] yields for it.
    - A [world] is the file tree under the working directory, with what was
      printed.  The data directory of the corpus library, into which
      [nltk.download] installs, lies outside it. *)

From Stdlib Require Import Ascii String.
From stdpp Require Import gmap strings list pretty.

#[local] Set Warnings "-clear-no-such-hyp".

(** ** Characters and strings *)

Definition newline : ascii := "010"%char.
Definition newline_str : string := String newline EmptyString.

(** [c] is one of [a-z]. *)
Definition is_lower_letter (c : ascii) : bool :=
  let n := nat_of_ascii c in (97 <=? n)%nat && (n <=? 122)%nat.

Definition is_upper_letter (c : ascii) : bool :=
  let n := nat_of_ascii c in (65 <=? n)%nat && (n <=? 90)%nat.

Definition lower_char (c : ascii) : ascii :=
  if is_upper_letter c then ascii_of_nat (nat_of_ascii c + 32) else c.

(** [str.lower()] *)
Fixpoint lower (s : string) : string :=
  match s with
  | EmptyString => EmptyString
  | String c s' => String (lower_char c) (lower s')
  end.

(** [lemma.replace("_", " ")] *)
Fixpoint replace_underscore (s : string) : string :=
  match s with
  | EmptyString => EmptyString
  | String c s' =>
      String (if Ascii.eqb c "_" then " "%char else c) (replace_underscore s')
  end.

(** [c in s] for a one-character [c] *)
Fixpoint contains (c : ascii) (s : string) : bool :=
  match s with
  | EmptyString => false
  | String a s' => Ascii.eqb a c || contains c s'
  end.

(** every character of [s] is one of [a-z] *)
Fixpoint letters_only (s : string) : bool :=
  match s with
  | EmptyString => true
  | String a s' => is_lower_letter a && letters_only s'
  end.

(** [s.isascii()]: every character of [s] is below 128 *)
Fixpoint ascii_only (s : string) : bool :=
  match s with
  | EmptyString => true
  | String a s' => (nat_of_ascii a <? 128)%nat && ascii_only s'
  end.

(** two to twelve lowercase Latin letters and nothing else *)
Definition two_to_twelve_letters (w : string) : bool :=
  letters_only w
  && ((2 <=? String.length w)%nat && (String.length w <=? 12)%nat).

(** ** The pattern [ALNUM = re.compile(r"^[a-z]+$")]

    [ALNUM.match(w)] anchors at the start, consumes the longest run of
    [a-z] (at least one), and then needs [$].  Without [re.MULTILINE],
    Python's [$] holds at the end of the string and also just before a
    newline that is the last character. *)

(** the greedy [[a-z]*]: what is left after the leading run of letters *)
Fixpoint skip_letters (s : string) : string :=
  match s with
  | String c s' => if is_lower_letter c then skip_letters s' else s
  | EmptyString => EmptyString
  end.

(** [$] at the current position, [rest] being what is left of the subject *)
Definition at_dollar (rest : string) : bool :=
  match rest with
  | EmptyString => true
  | String c EmptyString => Ascii.eqb c newline
  | _ => false
  end.

Definition ALNUM_match (w : string) : bool :=
  match w with
  | String c rest => is_lower_letter c && at_dollar (skip_letters rest)
  | EmptyString => false
  end.

(** ** [unique_lower] *)

(** [ALNUM.match(w) and 2 <= len(w) <= 12] *)
Definition passes_filter (w : string) : bool :=
  ALNUM_match w
  && ((2 <=? String.length w)%nat && (String.length w <=? 12)%nat).

(** the whole test of the [if] in the loop body, [w] already lowercased *)
Definition accepts (seen : gset string) (w : string) : bool :=
  passes_filter w && negb (bool_decide (w ∈ seen)).

(** one iteration of [for w in words], on the loop state [(seen, out)] *)
Definition unique_lower_step (st : gset string * list string) (w : string)
  : gset string * list string :=
  let '(seen, out) := st in
  let w := lower w in
  if accepts seen w then (seen ∪ {[w]}, out ++ [w]) else (seen, out).

Definition unique_lower (words : list string) : list string :=
  snd (fold_left unique_lower_step words (∅, [])).

(** ** Python sets that are iterated

    [s = set()] followed by [s.add(x)] calls: the set is represented by the
    sequence of its [add] calls.  [for w in s] visits every member once, in
    an order the language leaves open. *)

Definition pyset := list string.
Definition set_new : pyset := [].
Definition set_add (s : pyset) (x : string) : pyset := s ++ [x].

Class SetIteration := {
  traverse : pyset → list string;
  traverse_NoDup : ∀ s, NoDup (traverse s);
  traverse_elem : ∀ s x, x ∈ traverse s ↔ x ∈ s
}.

(** ** Exceptions *)

Inductive exn := LookupError | OSError | OtherError.

Inductive result (A : Type) :=
  | Ok (a : A)
  | Raise (e : exn).
Arguments Ok {A} a.
Arguments Raise {A} e.

#[export] Instance result_ret : MRet result := @Ok.
#[export] Instance result_bind : MBind result := λ A B f m,
  match m with
  | Ok a => f a
  | Raise e => Raise e
  end.

(** ** The corpus reader [wn] *)

Inductive pos := ADJ | ADJ_SAT | ADV | NOUN | VERB.

Record synset := Synset { lemma_names : list string }.

Record corpus := Corpus {
  (** [wn.synsets(word)], of which the script only observes whether it raises *)
  synsets : string → result unit;
  (** [wn.all_synsets(pos=...)], traversed to the end, or the exception that
      interrupts the traversal *)
  all_synsets : pos → result (list synset)
}.

(** the two nested [for] loops that fill a candidate set *)
Definition add_lemmas (s : pyset) (ss : list synset) : pyset :=
  fold_left
    (λ s syn,
       fold_left (λ s lemma, set_add s (replace_underscore lemma))
                 (lemma_names syn) s)
    ss s.

Definition collect_adjectives `{SetIteration} (wn : corpus)
  : result (list string) :=
  let adjs := set_new in
  ss ← all_synsets wn ADJ;
  let adjs := add_lemmas adjs ss in
  ss ← all_synsets wn ADJ_SAT;
  let adjs := add_lemmas adjs ss in
  mret (unique_lower (traverse adjs)).

Definition collect_nouns `{SetIteration} (wn : corpus)
  : result (list string) :=
  let nouns := set_new in
  ss ← all_synsets wn NOUN;
  let nouns := add_lemmas nouns ss in
  mret (unique_lower (traverse nouns)).

(** ** Files and the main program *)

(** [sep.join(ws)] *)
Fixpoint join (sep : string) (ws : list string) : string :=
  match ws with
  | [] => ""
  | [w] => w
  | w :: ws' => w +:+ sep +:+ join sep ws'
  end.

Record world := World {
  dirs : gset string;
  files : gmap string string;
  stdout : list string
}.

(** What the operating system does to a [write_text]: it goes through, the
    [open] is refused (the file is untouched), or the write breaks off after
    the file was truncated and [n] characters got out.  Why it refuses
    (permissions, what stands at the path, a full disk) is its own
    business: an [env] says for each call of a run what it answers. *)
Inductive io_fault := NoFault | FailOpen | FailWrite (n : nat).

Record env := Env {
  wn : corpus;
  nltk_download : string → result unit;
  (** the exception with which the operating system refuses [mkdir], if it
      does, and whether [public] had been made by then *)
  mkdir_fault : option exn;
  mkdir_made_parent : bool;
  write_fault : string → io_fault
}.

(** computations of the script: they run in a [world] and may raise *)
Definition M (A : Type) : Type := world → result A * world.

#[export] Instance M_ret : MRet M := λ A a w, (Ok a, w).
#[export] Instance M_bind : MBind M := λ A B f m w,
  match m w with
  | (Ok a, w') => f a w'
  | (Raise e, w') => (Raise e, w')
  end.

Definition lift {A} (r : result A) : M A := λ w, (r, w).

(** [nltk.download] installs into the data directory of the corpus library,
    which is not part of the [world]; of a download only its outcome
    counts here *)
Definition load_wordnet (e : env) : result unit :=
  match synsets (wn e) "dog" with
  | Raise LookupError =>
      _ ← nltk_download e "wordnet";
      nltk_download e "omw-1.4"
  | r => r
  end.

(** [out_dir.mkdir(parents=True, exist_ok=True)] for [public/names]: the
    missing parent [public] is made first, so a failure may leave it
    behind *)
Definition mkdir_parents (e : env) : M unit := λ w,
  match mkdir_fault e with
  | Some x =>
      (Raise x,
       if mkdir_made_parent e
       then World (dirs w ∪ {["public"]}) (files w) (stdout w)
       else w)
  | None =>
      (Ok (), World (dirs w ∪ {["public"; "public/names"]}) (files w) (stdout w))
  end.

(** [(dir / name).write_text(data, encoding="utf-8")]; the text is ASCII, so
    the bytes of the file are the characters of [data] *)
Definition write_text (e : env) (dir name data : string) : M unit := λ w,
  let p := dir +:+ "/" +:+ name in
  if bool_decide (dir ∈ dirs w) then
    match write_fault e p with
    | NoFault => (Ok (), World (dirs w) (<[p := data]> (files w)) (stdout w))
    | FailOpen => (Raise OSError, w)
    | FailWrite n =>
        (Raise OSError,
         World (dirs w) (<[p := String.substring 0 n data]> (files w)) (stdout w))
    end
  else (Raise OSError, w).

Definition print (line : string) : M unit := λ w,
  (Ok (), World (dirs w) (files w) (stdout w ++ [line])).

Definition main `{SetIteration} (e : env) : M unit :=
  _ ← lift (load_wordnet e);
  adjectives ← lift (collect_adjectives (wn e));
  nouns ← lift (collect_nouns (wn e));
  let out_dir := "public/names" in
  _ ← mkdir_parents e;
  _ ← write_text e out_dir "adjectives.txt" (join newline_str adjectives);
  _ ← write_text e out_dir "nouns.txt" (join newline_str nouns);
  _ ← print ("adjectives: " +:+ pretty (length adjectives)
             +:+ " -> public/names/adjectives.txt");
  print ("nouns     : " +:+ pretty (length nouns)
         +:+ " -> public/names/nouns.txt").

(** ** Reference definitions

    [first_occurrences l] keeps, of every value of [l], the first
    occurrence, in the order of [l]: the head stays and its later copies are
    struck from what follows. *)
Fixpoint first_occurrences (l : list string) : list string :=
  match l with
  | [] => []
  | x :: l' => x :: filter (λ y, y ≠ x) (first_occurrences l')
  end.

(** [unique_lower] as a recursion on the words still to visit, [seen] being
    the set so far; the loop equals it ([unique_lower_loop]) *)
Fixpoint unique_lower_from (seen : gset string) (ws : list string)
  : list string :=
  match ws with
  | [] => []
  | w :: ws' =>
      let w := lower w in
      if accepts seen w then w :: unique_lower_from (seen ∪ {[w]}) ws'
      else unique_lower_from seen ws'
  end.

(** the lemma strings [add_lemmas] puts into a set, in order *)
Definition candidates (ss : list synset) : list string :=
  ss ≫= (λ syn, replace_underscore <$> lemma_names syn).

(** characters of a text file: count of [c], and the lines between newlines *)
Fixpoint count_char (c : ascii) (s : string) : nat :=
  match s with
  | EmptyString => 0
  | String a s' => (if Ascii.eqb a c then 1 else 0) + count_char c s'
  end.

(** [s.split(c)] *)
Fixpoint split_on (c : ascii) (s : string) : list string :=
  match s with
  | EmptyString => [EmptyString]
  | String a s' =>
      if Ascii.eqb a c then EmptyString :: split_on c s'
      else match split_on c s' with
           | h :: t => String a h :: t
           | [] => [String a EmptyString]
           end
  end.

(** the lines of a file that does not end in a newline; a zero-byte file has
    none *)
Definition file_lines (content : string) : list string :=
  match content with
  | EmptyString => []
  | _ => split_on newline content
  end.

(** [s.endswith(c)] for a one-character [c] *)
Fixpoint ends_with (c : ascii) (s : string) : bool :=
  match s with
  | EmptyString => false
  | String a EmptyString => Ascii.eqb a c
  | String _ s' => ends_with c s'
  end.

(** the file at [p] holds the word list [ws], serialised *)
Definition written (p : string) (ws : list string) (w : world) : Prop :=
  files w !! p = Some (join newline_str ws).


(** two results agree up to the order of the words *)
Definition same_words (r1 r2 : result (list string)) : Prop :=
  match r1, r2 with
  | Ok l1, Ok l2 => l1 ≡ₚ l2
  | Raise e1, Raise e2 => e1 = e2
  | _, _ => False
  end.

(** ** Example corpora and environments *)

Definition corpus_of (adj sat noun : list synset) : corpus :=
  {| synsets := λ _, Ok ();
     all_synsets := λ p,
       match p with
       | ADJ => Ok adj
       | ADJ_SAT => Ok sat
       | NOUN => Ok noun
       | ADV | VERB => Ok []
       end |}.

(** a run in which nothing fails *)
Definition quiet_env (c : corpus) : env :=
  {| wn := c;
     nltk_download := λ _, Ok ();
     mkdir_fault := None;
     mkdir_made_parent := false;
     write_fault := λ _, NoFault |}.

Definition empty_world : world := World ∅ ∅ [].

Definition adjectives_txt : string := "public/names/adjectives.txt".
Definition nouns_txt : string := "public/names/nouns.txt".



(** * Properties *)

(** ** The definitions on sample input *)

Example ALNUM_match_samples :
  ALNUM_match "cat" = true
  ∧ ALNUM_match "Cat" = false
  ∧ ALNUM_match "dogs breath" = false
  ∧ ALNUM_match "" = false
  ∧ ALNUM_match "r2d2" = false
  ∧ ALNUM_match ("cat" +:+ newline_str) = true
  ∧ ALNUM_match ("cat" +:+ newline_str +:+ newline_str) = false
  ∧ ALNUM_match ("ca" +:+ newline_str +:+ "t") = false
  ∧ ALNUM_match newline_str = false.
Proof. by vm_compute. Qed.

Example lower_samples :
  lower "Cat" = "cat"
  ∧ lower "dogs breath" = "dogs breath"
  ∧ lower "AZ az @[`{" = "az az @[`{"
  ∧ replace_underscore "dogs_breath" = "dogs breath"
  ∧ replace_underscore "jack_in_the_box" = "jack in the box".
Proof. by vm_compute. Qed.

Example unique_lower_samples :
  unique_lower ["Cat"; "cat"; "dogs breath"; "a"; "supercalifragil"] = ["cat"]
  ∧ unique_lower ["ab"; "abcdefghijkl"; "abcdefghijklm"] = ["ab"; "abcdefghijkl"]
  ∧ unique_lower [] = [].
Proof. by vm_compute. Qed.

Example join_samples :
  join newline_str [] = ""
  ∧ join newline_str ["cat"] = "cat"
  ∧ join ", " ["cat"; "dog"; "emu"] = "cat, dog, emu".
Proof. by vm_compute. Qed.

(** ** Characters *)

Lemma lower_letter_not_upper c :
  is_lower_letter c = true → is_upper_letter c = false.
Proof.
  unfold is_lower_letter, is_upper_letter.
  rewrite andb_true_iff, andb_false_iff, !Nat.leb_le, !Nat.leb_gt. lia.
Qed.

Lemma lower_char_letter c : is_lower_letter c = true → lower_char c = c.
Proof. intros Hc. unfold lower_char. by rewrite lower_letter_not_upper. Qed.

Lemma lower_char_is_upper c :
  lower_char c ≠ c → is_upper_letter c = true.
Proof. unfold lower_char. by destruct (is_upper_letter c). Qed.

Lemma length_lower s : String.length (lower s) = String.length s.
Proof. induction s as [|c s IH]; simpl; congruence. Qed.

Lemma contains_lower c s :
  is_upper_letter c = false → is_lower_letter c = false →
  contains c (lower s) = contains c s.
Proof.
  intros Hu Hl. induction s as [|a s IH]; simpl; [done|].
  rewrite IH.
  enough (Ascii.eqb (lower_char a) c = Ascii.eqb a c) as -> by done.
  unfold lower_char.
  destruct (is_upper_letter a) eqn:Ha; [|done].
  assert (Ascii.eqb a c = false) as ->
    by (apply Ascii.eqb_neq; congruence).
  apply Ascii.eqb_neq. intros <-.
  revert Hl Ha. unfold is_lower_letter, is_upper_letter.
  rewrite andb_true_iff, andb_false_iff, !Nat.leb_le, !Nat.leb_gt.
  intros Hl [H1 H2].
  rewrite nat_ascii_embedding in Hl by lia.
  lia.
Qed.

Lemma contains_replace_space s :
  contains " " (replace_underscore s) = contains "_" s || contains " " s.
Proof.
  induction s as [|a s IH]; simpl; [done|]. rewrite IH.
  destruct (Ascii.eqb_spec a "_") as [->|H1]; simpl; [done|].
  by destruct (Ascii.eqb a " "), (contains "_" s), (contains " " s).
Qed.

Lemma contains_head a s : contains a (String a s) = true.
Proof. simpl. by rewrite Ascii.eqb_refl. Qed.

Lemma contains_tail c a s : contains c s = true → contains c (String a s) = true.
Proof. simpl. intros ->. apply orb_true_r. Qed.

Lemma lower_fixed s :
  (∀ c, contains c s = true → lower_char c = c) → lower s = s.
Proof.
  induction s as [|a s IH]; intros Hs; simpl; [done|].
  rewrite (Hs a (contains_head a s)), IH; [done|].
  intros c Hc. apply Hs. by apply contains_tail.
Qed.

Lemma letters_only_intro s :
  (∀ c, contains c s = true → is_lower_letter c = true) → letters_only s = true.
Proof.
  induction s as [|a s IH]; intros Hs; simpl; [done|].
  rewrite (Hs a (contains_head a s)), IH; [done|].
  intros c Hc. apply Hs. by apply contains_tail.
Qed.

Lemma letters_only_contains s c :
  letters_only s = true → contains c s = true → is_lower_letter c = true.
Proof.
  induction s as [|a s IH]; simpl; [done|].
  rewrite andb_true_iff, orb_true_iff. intros [Ha Hs] [Hc|Hc]; [|by auto].
  apply Ascii.eqb_eq in Hc. by subst.
Qed.

(** ** The pattern *)

Lemma at_dollar_skip_chars s c :
  at_dollar (skip_letters s) = true → contains c s = true →
  is_lower_letter c = true ∨ c = newline.
Proof.
  induction s as [|a s IH]; simpl; [done|].
  destruct (is_lower_letter a) eqn:Ha.
  - intros Hd [Hc|Hc]%orb_true_iff; [|by auto].
    apply Ascii.eqb_eq in Hc. subst. by left.
  - cbn [at_dollar contains]. destruct s as [|b s]; [|done].
    intros Hd%Ascii.eqb_eq. subst a. cbn [contains]. rewrite orb_false_r.
    intros Hc%Ascii.eqb_eq. by right.
Qed.

Lemma ALNUM_match_chars w c :
  ALNUM_match w = true → contains c w = true →
  is_lower_letter c = true ∨ c = newline.
Proof.
  destruct w as [|a s]; simpl; [done|].
  intros [Ha Hd]%andb_true_iff [Hc|Hc]%orb_true_iff.
  - apply Ascii.eqb_eq in Hc. subst. by left.
  - by eapply at_dollar_skip_chars.
Qed.

(** What [ALNUM] lets through is in lower case already. *)
Lemma ALNUM_match_lower w : ALNUM_match w = true → lower w = w.
Proof.
  intros Hw. apply lower_fixed. intros c Hc.
  destruct (ALNUM_match_chars w c Hw Hc) as [Hl| ->].
  - by apply lower_char_letter.
  - reflexivity.
Qed.

(** A character that is neither a letter nor the newline blocks the match. *)
Lemma ALNUM_match_excludes w c :
  is_lower_letter c = false → c ≠ newline →
  contains c w = true → ALNUM_match w = false.
Proof.
  intros Hl Hn Hc. destruct (ALNUM_match w) eqn:Hw; [|done].
  destruct (ALNUM_match_chars w c Hw Hc); congruence.
Qed.

Lemma ALNUM_match_letters w :
  ALNUM_match w = true → contains newline w = false → letters_only w = true.
Proof.
  intros Hw Hn. apply letters_only_intro. intros c Hc.
  destruct (ALNUM_match_chars w c Hw Hc) as [Hl| ->]; [done|congruence].
Qed.

Lemma skip_letters_only s : letters_only s = true → skip_letters s = EmptyString.
Proof.
  induction s as [|a s IH]; simpl; [done|].
  intros [-> Hs]%andb_true_iff. auto.
Qed.

Lemma letters_only_ALNUM_match w :
  letters_only w = true → w ≠ EmptyString → ALNUM_match w = true.
Proof.
  destruct w as [|a s]; simpl; [done|].
  intros [-> Hs]%andb_true_iff _. by rewrite skip_letters_only.
Qed.

Lemma passes_filter_lower w : passes_filter w = true → lower w = w.
Proof. intros [Hm _]%andb_true_iff. by apply ALNUM_match_lower. Qed.

(** Without a newline in it, a word that passes the filter is two to twelve
    lowercase letters. *)
Lemma passes_filter_letters w :
  passes_filter w = true → contains newline w = false →
  two_to_twelve_letters w = true.
Proof.
  intros [Hm Hlen]%andb_true_iff Hn. unfold two_to_twelve_letters.
  by rewrite ALNUM_match_letters.
Qed.

Lemma two_to_twelve_letters_passes w :
  two_to_twelve_letters w = true → passes_filter w = true.
Proof.
  intros [Hl Hlen]%andb_true_iff. unfold passes_filter.
  rewrite Hlen, letters_only_ALNUM_match; [done..|].
  intros ->. done.
Qed.

(** ** First occurrences *)

Lemma elem_of_first_occurrences l x : x ∈ first_occurrences l ↔ x ∈ l.
Proof.
  induction l as [|y l IH]; simpl; [done|].
  rewrite !elem_of_cons, list_elem_of_filter, IH.
  destruct (decide (x = y)); naive_solver.
Qed.

Lemma NoDup_first_occurrences l : NoDup (first_occurrences l).
Proof.
  induction l as [|y l IH]; simpl; [constructor|].
  apply NoDup_cons. split.
  - rewrite list_elem_of_filter. naive_solver.
  - by apply NoDup_filter.
Qed.

Lemma first_occurrences_sublist l : first_occurrences l `sublist_of` l.
Proof.
  induction l as [|y l IH]; simpl; [done|].
  apply sublist_skip. etrans; [apply sublist_filter|done].
Qed.

Lemma filter_first_occurrences (P : string → Prop) `{!∀ x, Decision (P x)} l :
  filter P (first_occurrences l) = first_occurrences (filter P l).
Proof.
  induction l as [|y l IH]; simpl; [done|].
  destruct (decide (P y)) as [Hy|Hy].
  - rewrite !filter_cons_True by done. simpl. f_equal.
    rewrite <-IH, !list_filter_filter. apply list_filter_iff. naive_solver.
  - rewrite !filter_cons_False by done.
    rewrite <-IH, list_filter_filter. apply list_filter_iff.
    intros x. split; [naive_solver|]. intros Hx. split; [done|]. by intros ->.
Qed.

Lemma first_occurrences_NoDup l : NoDup l → first_occurrences l = l.
Proof.
  induction 1 as [|y l Hy Hl IH]; simpl; [done|]. f_equal.
  rewrite IH. clear IH Hl. induction l as [|z l IH]; [done|].
  apply not_elem_of_cons in Hy as [Hne Hy].
  rewrite filter_cons_True by done. f_equal. auto.
Qed.

Lemma first_occurrences_app l1 l2 :
  first_occurrences (l1 ++ l2)
  = first_occurrences l1 ++ filter (λ x, x ∉ l1) (first_occurrences l2).
Proof.
  induction l1 as [|y l1 IH]; simpl.
  - symmetry. induction (first_occurrences l2) as [|z l IHl]; [done|].
    rewrite filter_cons_True by apply not_elem_of_nil. by f_equal.
  - f_equal. rewrite IH, filter_app, list_filter_filter. f_equal.
    apply list_filter_iff. intros x. rewrite not_elem_of_cons. naive_solver.
Qed.

(** ** The loop of [unique_lower] *)

Lemma unique_lower_loop ws seen out :
  fold_left unique_lower_step ws (seen, out)
  = (seen ∪ list_to_set (unique_lower_from seen ws),
     out ++ unique_lower_from seen ws).
Proof.
  revert seen out. induction ws as [|w ws IH]; intros seen out; simpl.
  - f_equal; [set_solver|by rewrite app_nil_r].
  - destruct (accepts seen (lower w)); [|done].
    rewrite IH. simpl. f_equal; [set_solver|by rewrite <-app_assoc].
Qed.

Lemma unique_lower_unfold ws : unique_lower ws = unique_lower_from ∅ ws.
Proof. unfold unique_lower. by rewrite unique_lower_loop. Qed.

Lemma unique_lower_from_spec seen ws :
  unique_lower_from seen ws
  = first_occurrences
      (filter (λ w, passes_filter w = true ∧ w ∉ seen) (lower <$> ws)).
Proof.
  revert seen. induction ws as [|w ws IH]; intros seen; simpl; [done|].
  unfold accepts. destruct (passes_filter (lower w)) eqn:Hp; simpl.
  - case_bool_decide as Hs; simpl.
    + rewrite filter_cons_False by naive_solver. apply IH.
    + rewrite filter_cons_True by done. simpl. f_equal.
      rewrite IH, filter_first_occurrences, list_filter_filter. f_equal.
      apply list_filter_iff. intros x. set_solver.
  - rewrite filter_cons_False by (intros [? _]; congruence). apply IH.
Qed.

Lemma unique_lower_spec ws :
  unique_lower ws
  = first_occurrences (filter (λ w, passes_filter w = true) (lower <$> ws)).
Proof.
  rewrite unique_lower_unfold, unique_lower_from_spec. f_equal.
  apply list_filter_iff. set_solver.
Qed.

Lemma elem_of_unique_lower ws x :
  x ∈ unique_lower ws ↔ passes_filter x = true ∧ ∃ w, w ∈ ws ∧ lower w = x.
Proof.
  rewrite unique_lower_spec, elem_of_first_occurrences, list_elem_of_filter,
    list_elem_of_fmap.
  naive_solver.
Qed.

Lemma NoDup_unique_lower ws : NoDup (unique_lower ws).
Proof. rewrite unique_lower_spec. apply NoDup_first_occurrences. Qed.

Lemma unique_lower_passes ws x : x ∈ unique_lower ws → passes_filter x = true.
Proof. rewrite elem_of_unique_lower. naive_solver. Qed.

(** The output depends on the order of the input only by its own order. *)
Lemma unique_lower_Permutation ws1 ws2 :
  (∀ x, x ∈ ws1 ↔ x ∈ ws2) → unique_lower ws1 ≡ₚ unique_lower ws2.
Proof.
  intros Hws. apply NoDup_Permutation; [apply NoDup_unique_lower..|].
  intros x. rewrite !elem_of_unique_lower. set_solver.
Qed.

Lemma unique_lower_fixed l :
  NoDup l → (∀ x, x ∈ l → passes_filter x = true) → unique_lower l = l.
Proof.
  intros Hnd Hl. rewrite unique_lower_spec.
  assert (lower <$> l = l) as ->.
  { clear Hnd. induction l as [|x l IH]; simpl; [done|].
    rewrite passes_filter_lower by (apply Hl; left).
    f_equal. apply IH. intros y Hy. apply Hl. by right. }
  assert (filter (λ w, passes_filter w = true) l = l) as ->.
  { clear Hnd. induction l as [|x l IH]; [done|].
    rewrite filter_cons_True by (apply Hl; left).
    f_equal. apply IH. intros y Hy. apply Hl. by right. }
  by apply first_occurrences_NoDup.
Qed.

(** ** Candidate sets *)

Lemma add_lemmas_candidates s ss : add_lemmas s ss = s ++ candidates ss.
Proof.
  unfold add_lemmas, candidates. revert s.
  induction ss as [|syn ss IH]; intros s; simpl.
  - by rewrite app_nil_r.
  - rewrite IH, app_assoc. f_equal.
    generalize (lemma_names syn). clear. intros l. revert s.
    induction l as [|x l IH]; intros s; simpl; [by rewrite app_nil_r|].
    rewrite IH. unfold set_add. by rewrite <-app_assoc.
Qed.

Lemma elem_of_candidates ss x :
  x ∈ candidates ss
  ↔ ∃ syn lemma, syn ∈ ss ∧ lemma ∈ lemma_names syn
                 ∧ x = replace_underscore lemma.
Proof.
  unfold candidates. rewrite list_elem_of_bind.
  setoid_rewrite list_elem_of_fmap. naive_solver.
Qed.

(** ** Two iteration orders

    Both satisfy [SetIteration]: members in the order of their first [add],
    and the same backwards. *)

Definition insertion_order : SetIteration :=
  {| traverse := first_occurrences;
     traverse_NoDup := NoDup_first_occurrences;
     traverse_elem := elem_of_first_occurrences |}.

Lemma NoDup_reverse_first_occurrences s : NoDup (reverse (first_occurrences s)).
Proof. rewrite reverse_Permutation. apply NoDup_first_occurrences. Qed.

Lemma elem_of_reverse_first_occurrences s x :
  x ∈ reverse (first_occurrences s) ↔ x ∈ s.
Proof. by rewrite elem_of_reverse, elem_of_first_occurrences. Qed.

Definition reverse_order : SetIteration :=
  {| traverse := λ s, reverse (first_occurrences s);
     traverse_NoDup := NoDup_reverse_first_occurrences;
     traverse_elem := elem_of_reverse_first_occurrences |}.

(** ** [unique_lower]: the claims about the function alone *)

Lemma lower_no_newline w :
  contains newline w = false → contains newline (lower w) = false.
Proof. intros Hw. by rewrite contains_lower. Qed.

(** On input without newline characters every output word is two to twelve
    lowercase letters. *)
Lemma unique_lower_letters ws x :
  (∀ w, w ∈ ws → contains newline w = false) →
  x ∈ unique_lower ws → two_to_twelve_letters x = true.
Proof.
  intros Hws (Hp & w & Hw & <-)%elem_of_unique_lower.
  apply passes_filter_letters; [done|]. by apply lower_no_newline, Hws.
Qed.

(** C4, at the input that breaks it: the word [cat] followed by a newline
    is matched by [ALNUM], because [$] also holds before a final newline; it
    has length 4, so [unique_lower] returns it, although it is not made of
    letters only and has whitespace in it.  Likewise [a] followed by a
    newline comes out with a single letter. *)
Theorem C4_trailing_newline_accepted :
  unique_lower ["cat" +:+ newline_str] = ["cat" +:+ newline_str]
  ∧ two_to_twelve_letters ("cat" +:+ newline_str) = false
  ∧ contains newline ("cat" +:+ newline_str) = true
  ∧ unique_lower ["a" +:+ newline_str] = ["a" +:+ newline_str].
Proof. by vm_compute. Qed.

(** C5, at the input that breaks it: from the words cat and cat followed
    by a newline, [unique_lower] returns both, which are different strings,
    so the list has no element twice; but the second is let through only
    because [$] holds before a final newline, and in the text written for
    the list the line cat then stands twice.  The same happens in a run of
    [main] on a corpus with these two noun lemmas, in either order of
    iteration. *)
Theorem C5_word_twice_in_file :
  let cat_nl := "cat" +:+ newline_str in
  let e := quiet_env (corpus_of [] [] [Synset ["cat"; cat_nl]]) in
  unique_lower ["cat"; cat_nl] = ["cat"; cat_nl]
  ∧ join newline_str (unique_lower ["cat"; cat_nl])
    = "cat" +:+ newline_str +:+ "cat" +:+ newline_str
  ∧ file_lines (join newline_str (unique_lower ["cat"; cat_nl]))
    = ["cat"; "cat"; ""]
  ∧ files (@main insertion_order e empty_world).2 !! nouns_txt
    = Some ("cat" +:+ newline_str +:+ "cat" +:+ newline_str)
  ∧ (file_lines <$> files (@main reverse_order e empty_world).2 !! nouns_txt)
    = Some ["cat"; ""; "cat"].
Proof. by vm_compute. Qed.

Lemma unique_lower_app ws1 ws2 :
  unique_lower (ws1 ++ ws2)
  = unique_lower ws1 ++ filter (λ x, x ∉ unique_lower ws1) (unique_lower ws2).
Proof.
  rewrite !unique_lower_spec, fmap_app, filter_app, first_occurrences_app.
  f_equal. apply list_filter_iff. intros x.
  by rewrite elem_of_first_occurrences.
Qed.

(** C6: [unique_lower] returns the lowercased words that pass the filter,
    each at its first occurrence and in input order: the output is the
    first occurrences of the accepted lowercased input; it is a sublist of
    the lowercased input; what a prefix of the input produced stays in front
    when more input follows, and the rest only adds words not produced
    before.  On zebra, apple, zebra the result is zebra, apple. *)
Theorem C6_first_occurrence_order (ws ws' : list string) :
  unique_lower ws
  = first_occurrences (filter (λ w, passes_filter w = true) (lower <$> ws))
  ∧ unique_lower ws `sublist_of` (lower <$> ws)
  ∧ unique_lower (ws ++ ws')
    = unique_lower ws ++ filter (λ x, x ∉ unique_lower ws) (unique_lower ws')
  ∧ unique_lower ["zebra"; "apple"; "zebra"] = ["zebra"; "apple"].
Proof.
  split_and!.
  - apply unique_lower_spec.
  - rewrite unique_lower_spec.
    etrans; [apply first_occurrences_sublist|apply sublist_filter].
  - apply unique_lower_app.
  - by vm_compute.
Qed.

(** C9: [unique_lower] returns its own output unchanged. *)
Theorem C9_unique_lower_idempotent (ws : list string) :
  unique_lower (unique_lower ws) = unique_lower ws.
Proof.
  apply unique_lower_fixed.
  - apply NoDup_unique_lower.
  - apply unique_lower_passes.
Qed.

(** ** The collectors *)

Lemma collect_nouns_ok `{SetIteration} wn ss :
  all_synsets wn NOUN = Ok ss →
  collect_nouns wn = Ok (unique_lower (traverse (candidates ss))).
Proof.
  intros Hn. unfold collect_nouns. rewrite Hn. simpl.
  by rewrite add_lemmas_candidates.
Qed.

Lemma collect_adjectives_ok `{SetIteration} wn adj sat :
  all_synsets wn ADJ = Ok adj → all_synsets wn ADJ_SAT = Ok sat →
  collect_adjectives wn
  = Ok (unique_lower (traverse (candidates adj ++ candidates sat))).
Proof.
  intros Ha Hs. unfold collect_adjectives. rewrite Ha. simpl. rewrite Hs. simpl.
  by rewrite !add_lemmas_candidates.
Qed.

(** what either collector returns is [unique_lower] of a traversal *)
Lemma collect_adjectives_inv `{SetIteration} wn l :
  collect_adjectives wn = Ok l → ∃ s, l = unique_lower (traverse s).
Proof.
  unfold collect_adjectives.
  destruct (all_synsets wn ADJ); simpl; [|done].
  destruct (all_synsets wn ADJ_SAT); simpl; [|done].
  intros [= <-]. eauto.
Qed.

Lemma collect_nouns_inv `{SetIteration} wn l :
  collect_nouns wn = Ok l → ∃ s, l = unique_lower (traverse s).
Proof.
  unfold collect_nouns.
  destruct (all_synsets wn NOUN); simpl; [|done].
  intros [= <-]. eauto.
Qed.

Lemma elem_of_unique_lower_traverse `{SetIteration} s x :
  x ∈ unique_lower (traverse s)
  ↔ passes_filter x = true ∧ ∃ w, w ∈ s ∧ lower w = x.
Proof.
  rewrite elem_of_unique_lower. by setoid_rewrite traverse_elem.
Qed.

Lemma NoDup_single (l : list string) a :
  NoDup l → (∀ x, x ∈ l ↔ x = a) → l = [a].
Proof.
  intros Hnd Hl. destruct l as [|b l].
  - exfalso. eapply not_elem_of_nil, Hl. done.
  - assert (b = a) as -> by (apply Hl; left).
    f_equal. destruct l as [|c l]; [done|].
    apply NoDup_cons in Hnd as [Hb _]. exfalso. apply Hb.
    assert (c = a) as -> by (apply Hl; right; left). left.
Qed.

(** the output words have neither a space nor an underscore in them *)
Lemma passes_filter_no_separator x :
  passes_filter x = true → contains " " x = false ∧ contains "_" x = false.
Proof.
  intros [Hm _]%andb_true_iff. split.
  - destruct (contains " " x) eqn:Hc; [|done].
    by rewrite (ALNUM_match_excludes x " ") in Hm.
  - destruct (contains "_" x) eqn:Hc; [|done].
    by rewrite (ALNUM_match_excludes x "_") in Hm.
Qed.

(** a lemma with an underscore or a space in it is turned into a candidate
    with a space, which the filter rejects *)
Lemma separator_rejected lemma :
  contains "_" lemma || contains " " lemma = true →
  passes_filter (lower (replace_underscore lemma)) = false.
Proof.
  intros Hsep. destruct (passes_filter _) eqn:Hp; [|done].
  apply passes_filter_no_separator in Hp as [Hp _].
  rewrite contains_lower, contains_replace_space in Hp by done. congruence.
Qed.

(** ** C1 *)

(** C1: when the lemmas under the noun groups are Cat, cat, dogs_breath, a
    and supercalifragil, [collect_nouns] returns exactly the list with the
    one word cat, whatever order the candidate set is traversed in: Cat and
    cat lowercase to the same word, and the candidates made from
    dogs_breath, a and supercalifragil do not pass the filter. *)
Theorem C1_filtering_correctness `{SetIteration} (wn : corpus)
    (ss : list synset) :
  all_synsets wn NOUN = Ok ss →
  (∀ lemma, (∃ syn, syn ∈ ss ∧ lemma ∈ lemma_names syn)
            ↔ lemma ∈ ["Cat"; "cat"; "dogs_breath"; "a"; "supercalifragil"]) →
  collect_nouns wn = Ok ["cat"]
  ∧ lower (replace_underscore "Cat") = lower (replace_underscore "cat")
  ∧ passes_filter (lower (replace_underscore "dogs_breath")) = false
  ∧ passes_filter (lower (replace_underscore "a")) = false
  ∧ passes_filter (lower (replace_underscore "supercalifragil")) = false.
Proof.
  intros Hn Hss. split; [|by vm_compute].
  rewrite (collect_nouns_ok wn ss Hn). f_equal.
  apply NoDup_single; [apply NoDup_unique_lower|].
  intros x. rewrite elem_of_unique_lower_traverse. split.
  - intros (Hp & w & (syn & lemma & Hsyn & Hl & ->)%elem_of_candidates & <-).
    assert (lemma ∈ ["Cat"; "cat"; "dogs_breath"; "a"; "supercalifragil"])
      as Hin by (apply Hss; eauto).
    repeat (apply elem_of_cons in Hin as [->|Hin]);
      [by vm_compute|by vm_compute|by vm_compute in Hp..|].
    by apply not_elem_of_nil in Hin.
  - intros ->. split; [by vm_compute|].
    exists (replace_underscore "cat"). split; [|by vm_compute].
    destruct (proj2 (Hss "cat")) as (syn & Hsyn & Hl).
    { right; left. }
    apply elem_of_candidates. eauto.
Qed.

Lemma C1_filtering_correctness_witness :
  @collect_nouns reverse_order
    (corpus_of [] []
       [Synset ["Cat"; "cat"]; Synset ["dogs_breath"; "a"; "supercalifragil"]])
  = Ok ["cat"].
Proof.
  refine (proj1 (@C1_filtering_correctness reverse_order
    (corpus_of [] []
       [Synset ["Cat"; "cat"]; Synset ["dogs_breath"; "a"; "supercalifragil"]])
    [Synset ["Cat"; "cat"]; Synset ["dogs_breath"; "a"; "supercalifragil"]]
    eq_refl _)).
  intros lemma. split.
  - intros (syn & Hsyn & Hl).
    repeat (apply elem_of_cons in Hsyn as [->|Hsyn]); simpl in Hl.
    + repeat (apply elem_of_cons in Hl as [->|Hl]);
        [repeat constructor..|by apply not_elem_of_nil in Hl].
    + repeat (apply elem_of_cons in Hl as [->|Hl]);
        [repeat constructor..|by apply not_elem_of_nil in Hl].
    + by apply not_elem_of_nil in Hsyn.
  - intros Hin. repeat (apply elem_of_cons in Hin as [->|Hin]).
    + exists (Synset ["Cat"; "cat"]). split; repeat constructor.
    + exists (Synset ["Cat"; "cat"]). split; repeat constructor.
    + exists (Synset ["dogs_breath"; "a"; "supercalifragil"]).
      split; repeat constructor.
    + exists (Synset ["dogs_breath"; "a"; "supercalifragil"]).
      split; repeat constructor.
    + exists (Synset ["dogs_breath"; "a"; "supercalifragil"]).
      split; repeat constructor.
    + by apply not_elem_of_nil in Hin.
Defined.

(** ** C2: two runs *)

(** C2 as stated fails: the same corpus, with nothing failing, run under two
    admissible iteration orders of the candidate set, leaves different
    bytes in the nouns file. *)
Lemma C2_order_changes_files :
  let e := quiet_env (corpus_of [] [] [Synset ["zebra"; "apple"]]) in
  (@main insertion_order e empty_world).1 = Ok ()
  ∧ (@main reverse_order e empty_world).1 = Ok ()
  ∧ files (@main insertion_order e empty_world).2 !! nouns_txt
    = Some ("zebra" +:+ newline_str +:+ "apple")
  ∧ files (@main reverse_order e empty_world).2 !! nouns_txt
    = Some ("apple" +:+ newline_str +:+ "zebra")
  ∧ files (@main insertion_order e empty_world).2 !! nouns_txt
    ≠ files (@main reverse_order e empty_world).2 !! nouns_txt.
Proof. by vm_compute. Qed.

Lemma main_ext (SI1 SI2 : SetIteration) e :
  @collect_adjectives SI1 (wn e) = @collect_adjectives SI2 (wn e) →
  @collect_nouns SI1 (wn e) = @collect_nouns SI2 (wn e) →
  ∀ w, @main SI1 e w = @main SI2 e w.
Proof. intros Ha Hn w. unfold main. by rewrite Ha, Hn. Qed.

(** C2, amended: two runs on the same corpus fail alike or return word
    lists that are permutations of each other (the same words, in an order
    that follows the traversal of the candidate sets); and when both runs
    traverse the sets in the same order, the whole run, files included, is
    the same. *)
Theorem C2_same_words_any_order (SI1 SI2 : SetIteration) (e : env) :
  same_words (@collect_adjectives SI1 (wn e)) (@collect_adjectives SI2 (wn e))
  ∧ same_words (@collect_nouns SI1 (wn e)) (@collect_nouns SI2 (wn e))
  ∧ ((∀ s, @traverse SI1 s = @traverse SI2 s) →
     ∀ w, @main SI1 e w = @main SI2 e w).
Proof.
  split_and!.
  - unfold collect_adjectives.
    destruct (all_synsets (wn e) ADJ); simpl; [|done].
    destruct (all_synsets (wn e) ADJ_SAT); simpl; [|done].
    apply unique_lower_Permutation. intros x. by rewrite !traverse_elem.
  - unfold collect_nouns.
    destruct (all_synsets (wn e) NOUN); simpl; [|done].
    apply unique_lower_Permutation. intros x. by rewrite !traverse_elem.
  - intros Ht. apply main_ext.
    + unfold collect_adjectives.
      destruct (all_synsets (wn e) ADJ); simpl; [|done].
      destruct (all_synsets (wn e) ADJ_SAT); simpl; [|done].
      by rewrite Ht.
    + unfold collect_nouns.
      destruct (all_synsets (wn e) NOUN); simpl; [|done].
      by rewrite Ht.
Qed.

Lemma C2_same_words_any_order_witness :
  same_words
    (@collect_nouns insertion_order (corpus_of [] [] [Synset ["zebra"; "apple"]]))
    (@collect_nouns reverse_order (corpus_of [] [] [Synset ["zebra"; "apple"]]))
  ∧ @main insertion_order
      (quiet_env (corpus_of [] [] [Synset ["zebra"; "apple"]])) empty_world
    = @main insertion_order
      (quiet_env (corpus_of [] [] [Synset ["zebra"; "apple"]])) empty_world.
Proof.
  split.
  - exact (proj1 (proj2 (C2_same_words_any_order insertion_order reverse_order
      (quiet_env (corpus_of [] [] [Synset ["zebra"; "apple"]]))))).
  - exact (proj2 (proj2 (C2_same_words_any_order insertion_order insertion_order
      (quiet_env (corpus_of [] [] [Synset ["zebra"; "apple"]]))))
      (λ s, eq_refl) empty_world).
Defined.

(** ** C7: multi-word lemmas *)

Lemma unique_lower_skip ws1 w ws2 :
  passes_filter (lower w) = false →
  unique_lower (ws1 ++ w :: ws2) = unique_lower (ws1 ++ ws2).
Proof.
  intros Hw. rewrite !unique_lower_spec, !fmap_app, !filter_app, fmap_cons.
  rewrite filter_cons_False; [done|congruence].
Qed.

(** C7: a lemma with an underscore or a space in it is absent from both
    word lists.  Its candidate (underscores turned into spaces), lowercased,
    is rejected by the filter; wherever the candidate comes in the
    traversal it is skipped, so the output is that of the traversal
    without it; and neither the lemma, nor its candidate, nor the
    lowercased candidate is a word of a list [collect_adjectives] or
    [collect_nouns] returns. *)
Theorem C7_multiword_excluded `{SetIteration} (wn : corpus) (lemma : string) :
  contains "_" lemma || contains " " lemma = true →
  passes_filter (lower (replace_underscore lemma)) = false
  ∧ (∀ ws1 ws2,
       unique_lower (ws1 ++ replace_underscore lemma :: ws2)
       = unique_lower (ws1 ++ ws2))
  ∧ match collect_adjectives wn with
    | Ok adjectives =>
        (lemma ∉ adjectives) ∧ (replace_underscore lemma ∉ adjectives)
        ∧ (lower (replace_underscore lemma) ∉ adjectives)
    | Raise _ => True
    end
  ∧ match collect_nouns wn with
    | Ok nouns =>
        (lemma ∉ nouns) ∧ (replace_underscore lemma ∉ nouns)
        ∧ (lower (replace_underscore lemma) ∉ nouns)
    | Raise _ => True
    end.
Proof.
  intros Hsep.
  assert (∀ s, (lemma ∉ unique_lower (traverse s))
               ∧ (replace_underscore lemma ∉ unique_lower (traverse s))
               ∧ (lower (replace_underscore lemma) ∉ unique_lower (traverse s)))
    as Habsent.
  { intros s. split_and!; intros Hp%unique_lower_passes.
    - apply passes_filter_no_separator in Hp as [H1 H2].
      by rewrite H1, H2 in Hsep.
    - apply passes_filter_no_separator in Hp as [H1 _].
      rewrite contains_replace_space in H1. congruence.
    - by rewrite separator_rejected in Hp. }
  split_and!.
  - by apply separator_rejected.
  - intros ws1 ws2. by apply unique_lower_skip, separator_rejected.
  - destruct (collect_adjectives wn) as [l|] eqn:Hl; [|done].
    apply collect_adjectives_inv in Hl as [s ->]. apply Habsent.
  - destruct (collect_nouns wn) as [l|] eqn:Hl; [|done].
    apply collect_nouns_inv in Hl as [s ->]. apply Habsent.
Qed.

Lemma C7_multiword_excluded_witness :
  passes_filter (lower (replace_underscore "dogs_breath")) = false
  ∧ @collect_nouns insertion_order
      (corpus_of [] [] [Synset ["dogs_breath"; "dog"]]) = Ok ["dog"].
Proof.
  split.
  - exact (proj1 (@C7_multiword_excluded insertion_order
      (corpus_of [] [] [Synset ["dogs_breath"; "dog"]]) "dogs_breath" eq_refl)).
  - reflexivity.
Defined.

(** ** C8: satellites *)

(** C8: a lemma of an adjective-satellite group whose lowercased candidate
    passes the filter is in the list [collect_adjectives] returns, in its
    lowercased form, whether or not it also stands under the plain
    adjectives; a lemma that is already in normal form, such as happy, is
    in the list as it is. *)
Theorem C8_satellites_merged `{SetIteration} (wn : corpus)
    (adj sat : list synset) (syn : synset) (lemma : string) :
  all_synsets wn ADJ = Ok adj →
  all_synsets wn ADJ_SAT = Ok sat →
  syn ∈ sat → lemma ∈ lemma_names syn →
  passes_filter (lower (replace_underscore lemma)) = true →
  ∃ adjectives,
    collect_adjectives wn = Ok adjectives
    ∧ lower (replace_underscore lemma) ∈ adjectives
    ∧ (two_to_twelve_letters lemma = true → lemma ∈ adjectives).
Proof.
  intros Ha Hs Hsyn Hl Hp. eexists. split; [by apply collect_adjectives_ok|].
  assert (lower (replace_underscore lemma)
          ∈ unique_lower (traverse (candidates adj ++ candidates sat))) as Hin.
  { apply elem_of_unique_lower_traverse. split; [done|].
    exists (replace_underscore lemma). split; [|done].
    apply elem_of_app. right. apply elem_of_candidates. eauto. }
  split; [done|]. intros Hn.
  assert (replace_underscore lemma = lemma) as Hr.
  { apply andb_true_iff in Hn as [Hn _]. clear -Hn.
    induction lemma as [|a s IH]; simpl in *; [done|].
    apply andb_true_iff in Hn as [Ha Hn]. rewrite IH by done.
    destruct (Ascii.eqb_spec a "_") as [->|]; [done|done]. }
  rewrite Hr in Hin.
  by rewrite passes_filter_lower in Hin by by apply two_to_twelve_letters_passes.
Qed.

Lemma C8_satellites_merged_witness :
  ∃ adjectives,
    @collect_adjectives reverse_order
      (corpus_of [Synset ["sad"]] [Synset ["glad"; "happy"]] []) = Ok adjectives
    ∧ lower (replace_underscore "happy") ∈ adjectives
    ∧ (two_to_twelve_letters "happy" = true → "happy" ∈ adjectives).
Proof.
  apply (@C8_satellites_merged reverse_order
    (corpus_of [Synset ["sad"]] [Synset ["glad"; "happy"]] [])
    [Synset ["sad"]] [Synset ["glad"; "happy"]] (Synset ["glad"; "happy"])
    "happy" eq_refl eq_refl).
  - left.
  - right. left.
  - reflexivity.
Defined.

(** ** The main program *)

Lemma out_dir_exists (d : gset string) :
  bool_decide ("public/names" ∈ d ∪ {["public"; "public/names"]}) = true.
Proof. apply bool_decide_eq_true_2. set_solver. Qed.

(** The run of [main], case by case: which step fails first, and the world
    it leaves. *)
Lemma main_outcome `{SetIteration} (e : env) (w : world) :
  main e w =
  match load_wordnet e, collect_adjectives (wn e), collect_nouns (wn e),
        mkdir_fault e with
  | Raise x, _, _, _ | Ok _, Raise x, _, _ | Ok _, Ok _, Raise x, _ =>
      (Raise x, w)
  | Ok _, Ok _, Ok _, Some x =>
      (Raise x,
       if mkdir_made_parent e
       then World (dirs w ∪ {["public"]}) (files w) (stdout w)
       else w)
  | Ok _, Ok adjectives, Ok nouns, None =>
      let d := dirs w ∪ {["public"; "public/names"]} in
      let a := join newline_str adjectives in
      let n := join newline_str nouns in
      match write_fault e adjectives_txt with
      | FailOpen => (Raise OSError, World d (files w) (stdout w))
      | FailWrite k =>
          (Raise OSError,
           World d (<[adjectives_txt := String.substring 0 k a]> (files w))
                 (stdout w))
      | NoFault =>
          let fa := <[adjectives_txt := a]> (files w) in
          match write_fault e nouns_txt with
          | FailOpen => (Raise OSError, World d fa (stdout w))
          | FailWrite k =>
              (Raise OSError,
               World d (<[nouns_txt := String.substring 0 k n]> fa) (stdout w))
          | NoFault =>
              (Ok (),
               World d (<[nouns_txt := n]> fa)
                 (stdout w
                  ++ ["adjectives: " +:+ pretty (length adjectives)
                      +:+ " -> public/names/adjectives.txt"]
                  ++ ["nouns     : " +:+ pretty (length nouns)
                      +:+ " -> public/names/nouns.txt"]))
          end
      end
  end.
Proof.
  unfold main, mbind, M_bind, lift.
  destruct (load_wordnet e) as [[]|x]; [|done].
  destruct (collect_adjectives (wn e)) as [adjectives|x]; [|done].
  destruct (collect_nouns (wn e)) as [nouns|x]; [|done].
  unfold mkdir_parents. destruct (mkdir_fault e) as [x|]; [done|].
  unfold write_text at 1. cbn [dirs files stdout].
  change ("public/names" +:+ "/" +:+ "adjectives.txt") with adjectives_txt.
  rewrite out_dir_exists.
  destruct (write_fault e adjectives_txt); [|done..].
  unfold write_text. cbn [dirs files stdout].
  change ("public/names" +:+ "/" +:+ "nouns.txt") with nouns_txt.
  rewrite out_dir_exists.
  destruct (write_fault e nouns_txt); [|done..].
  unfold print. cbn [dirs files stdout]. by rewrite <-app_assoc.
Qed.

Example main_sample :
  @main insertion_order
    (quiet_env (corpus_of [Synset ["sad"]] [Synset ["Glad"; "well_off"]]
                          [Synset ["dog"; "domestic_dog"]; Synset ["Emu"]]))
    empty_world
  = (Ok (),
     {| dirs := {["public"; "public/names"]};
        files := {[adjectives_txt := "sad" +:+ newline_str +:+ "glad";
                   nouns_txt := "dog" +:+ newline_str +:+ "emu"]};
        stdout := ["adjectives: 2 -> public/names/adjectives.txt";
                   "nouns     : 2 -> public/names/nouns.txt"] |}).
Proof. by vm_compute. Qed.

(** ** C3: what a failing run leaves behind *)



(** ** C10: the text of a file *)

Lemma count_char_app c x y :
  count_char c (x +:+ y) = count_char c x + count_char c y.
Proof. induction x as [|a x IH]; simpl; [done|]. rewrite IH. lia. Qed.

Lemma count_char_absent c x : contains c x = false → count_char c x = 0.
Proof.
  induction x as [|a x IH]; simpl; [done|].
  intros [-> Hx]%orb_false_iff. auto.
Qed.

Lemma split_on_absent c x : contains c x = false → split_on c x = [x].
Proof.
  induction x as [|a x IH]; simpl; [done|].
  intros [-> Hx]%orb_false_iff. by rewrite IH.
Qed.

Lemma split_on_app c x y :
  contains c x = false →
  split_on c (x +:+ String c y) = x :: split_on c y.
Proof.
  induction x as [|a x IH]; simpl.
  - intros _. by rewrite Ascii.eqb_refl.
  - intros [-> Hx]%orb_false_iff. by rewrite IH.
Qed.

Lemma ends_with_absent c x : contains c x = false → ends_with c x = false.
Proof.
  induction x as [|a x IH]; simpl; [done|].
  intros [Ha Hx]%orb_false_iff. destruct x; auto.
Qed.

Lemma ends_with_app c x y :
  y ≠ EmptyString → ends_with c (x +:+ y) = ends_with c y.
Proof.
  intros Hy. induction x as [|a x IH]; simpl; [done|].
  rewrite IH. destruct (x +:+ y) eqn:Hxy; [|done].
  destruct x; cbv [String.append] in Hxy; congruence.
Qed.

Section join_newline.
Variable ws : list string.
Hypothesis no_newline : ∀ x, x ∈ ws → contains newline x = false.

Lemma count_newline_join :
  count_char newline (join newline_str ws) = length ws - 1.
Proof using no_newline.
  induction ws as [|x l IH]; [done|].
  assert (contains newline x = false) as Hx by (apply no_newline; left).
  destruct l as [|y l].
  - simpl. by apply count_char_absent.
  - change (join newline_str (x :: y :: l))
      with (x +:+ newline_str +:+ join newline_str (y :: l)).
    rewrite !count_char_app, IH by (intros; apply no_newline; by right).
    rewrite (count_char_absent _ x Hx). simpl. lia.
Qed.

Lemma split_on_join : ws ≠ [] → split_on newline (join newline_str ws) = ws.
Proof using no_newline.
  induction ws as [|x l IH]; [done|]. intros _.
  assert (contains newline x = false) as Hx by (apply no_newline; left).
  destruct l as [|y l].
  - simpl. by apply split_on_absent.
  - change (join newline_str (x :: y :: l))
      with (x +:+ String newline (join newline_str (y :: l))).
    rewrite split_on_app by done. f_equal.
    apply IH; [|done]. intros; apply no_newline; by right.
Qed.

Hypothesis nonempty : ∀ x, x ∈ ws → x ≠ EmptyString.

Lemma join_nonempty : ws ≠ [] → join newline_str ws ≠ EmptyString.
Proof using no_newline nonempty.
  destruct ws as [|x l]; [done|]. intros _.
  assert (x ≠ EmptyString) as Hx by (apply nonempty; left).
  destruct x as [|a x]; [done|]. by destruct l.
Qed.

Lemma join_no_trailing_newline :
  ends_with newline (join newline_str ws) = false.
Proof using no_newline nonempty.
  induction ws as [|x l IH]; [done|].
  assert (contains newline x = false) as Hx by (apply no_newline; left).
  destruct l as [|y l].
  - simpl. by apply ends_with_absent.
  - change (join newline_str (x :: y :: l))
      with (x +:+ String newline (join newline_str (y :: l))).
    rewrite ends_with_app by done.
    assert (join newline_str (y :: l) ≠ EmptyString) as Hj.
    { assert (y ≠ EmptyString) as Hy by (apply nonempty; right; left).
      destruct y; [done|]. by destruct l. }
    cbn [ends_with]. destruct (join newline_str (y :: l)) eqn:Hjoin; [done|].
    apply IH.
    + intros; apply no_newline; by right.
    + intros; apply nonempty; by right.
Qed.

Lemma file_lines_join : file_lines (join newline_str ws) = ws.
Proof using no_newline nonempty.
  destruct (decide (ws = [])) as [->|Hne]; [done|].
  unfold file_lines. pose proof (join_nonempty Hne).
  destruct (join newline_str ws) eqn:Hj; [done|].
  rewrite <-Hj. by apply split_on_join.
Qed.
End join_newline.

Lemma two_to_twelve_letters_plain x :
  two_to_twelve_letters x = true → x ≠ EmptyString ∧ contains newline x = false.
Proof.
  intros [Hl Hlen]%andb_true_iff. split.
  - intros ->. done.
  - destruct (contains newline x) eqn:Hc; [|done].
    by pose proof (letters_only_contains x newline Hl Hc).
Qed.

(** On a corpus without newline characters the lines of a written file are
    the words of the list, so the file has no line twice either. *)
Lemma file_lines_unique_lower ws :
  (∀ w, w ∈ ws → contains newline w = false) →
  file_lines (join newline_str (unique_lower ws)) = unique_lower ws.
Proof.
  intros Hws. apply file_lines_join.
  - intros x Hx. by eapply two_to_twelve_letters_plain, unique_lower_letters.
  - intros x Hx. by eapply two_to_twelve_letters_plain, unique_lower_letters.
Qed.

Lemma main_success_files `{SetIteration} (e : env) (w : world) :
  match main e w with
  | (Ok _, w') =>
      ∃ adjectives nouns,
        collect_adjectives (wn e) = Ok adjectives
        ∧ collect_nouns (wn e) = Ok nouns
        ∧ written adjectives_txt adjectives w'
        ∧ written nouns_txt nouns w'
  | (Raise _, _) => True
  end.
Proof.
  rewrite main_outcome.
  destruct (load_wordnet e) as [[]|x]; [|done].
  destruct (collect_adjectives (wn e)) as [adjectives|x]; [|done].
  destruct (collect_nouns (wn e)) as [nouns|x]; [|done].
  destruct (mkdir_fault e) as [x|]; [done|].
  destruct (write_fault e adjectives_txt); [|done..].
  destruct (write_fault e nouns_txt); [|done..].
  exists adjectives, nouns. unfold written. cbn [files]. split_and!; [done..| |].
  - by rewrite lookup_insert_ne, lookup_insert_eq.
  - by rewrite lookup_insert_eq.
Qed.

(** C10 as stated fails for a list with a newline inside a word, and
    [unique_lower] returns such lists: for the two words it returns on cat
    followed by a newline and dog, the text has two newline characters and
    three lines; and the text for cat and dog followed by a newline ends in
    a newline. *)
Lemma C10_newline_word_breaks_count :
  let ws := unique_lower ["cat" +:+ newline_str; "dog"] in
  ws = ["cat" +:+ newline_str; "dog"]
  ∧ count_char newline (join newline_str ws) = 2
  ∧ count_char newline (join newline_str ws) ≠ length ws - 1
  ∧ file_lines (join newline_str ws) = ["cat"; ""; "dog"]
  ∧ length (file_lines (join newline_str ws)) ≠ length ws
  ∧ ends_with newline
      (join newline_str (unique_lower ["cat"; "dog" +:+ newline_str])) = true.
Proof. vm_compute. by split_and!. Qed.

(** C10, amended: a word list is persisted as its words joined by single
    newline characters.  [write_text] stores exactly [join] of the list, a
    successful run of [main] leaves both files holding the join of their
    lists, and the empty list gives the empty text.  When the words are
    non-empty and free of newlines (as two to twelve letters are), the
    lines of that text are the words themselves, one line per word, there
    is one newline fewer than there are words, and the text does not end
    in a newline. *)
Theorem C10_serialization `{SetIteration} (e : env) (w : world)
    (dir name : string) (ws : list string) :
  dir ∈ dirs w →
  write_fault e (dir +:+ "/" +:+ name) = NoFault →
  let content := join newline_str ws in
  (write_text e dir name content w).1 = Ok ()
  ∧ files (write_text e dir name content w).2 !! (dir +:+ "/" +:+ name)
    = Some content
  ∧ String.length (join newline_str []) = 0
  ∧ match main e w with
    | (Ok _, w') =>
        ∃ adjectives nouns,
          collect_adjectives (wn e) = Ok adjectives
          ∧ collect_nouns (wn e) = Ok nouns
          ∧ files w' !! adjectives_txt = Some (join newline_str adjectives)
          ∧ files w' !! nouns_txt = Some (join newline_str nouns)
    | (Raise _, _) => True
    end
  ∧ ((∀ x, x ∈ ws → x ≠ EmptyString ∧ contains newline x = false) →
     file_lines content = ws
     ∧ count_char newline content = length ws - 1
     ∧ ends_with newline content = false).
Proof.
  intros Hdir Hfault content.
  unfold write_text. rewrite bool_decide_eq_true_2, Hfault by done.
  cbn [fst snd files]. split_and!.
  - done.
  - by rewrite lookup_insert_eq.
  - done.
  - apply main_success_files.
  - intros Hws.
    assert (∀ x, x ∈ ws → contains newline x = false) as Hnl
      by (intros x Hx; by apply Hws).
    assert (∀ x, x ∈ ws → x ≠ EmptyString) as Hne
      by (intros x Hx; by apply Hws).
    split_and!.
    + by apply file_lines_join.
    + by apply count_newline_join.
    + by apply join_no_trailing_newline.
Qed.

Lemma C10_serialization_witness :
  let e := quiet_env (corpus_of [] [] [Synset ["cat"; "dog"]]) in
  let w := World {["public/names"]} ∅ [] in
  files (write_text e "public/names" "nouns.txt"
           (join newline_str ["cat"; "dog"]) w).2 !! nouns_txt
  = Some ("cat" +:+ newline_str +:+ "dog")
  ∧ file_lines (join newline_str ["cat"; "dog"]) = ["cat"; "dog"]
  ∧ count_char newline (join newline_str ["cat"; "dog"]) = 1.
Proof.
  intros e w.
  destruct (@C10_serialization insertion_order e w "public/names" "nouns.txt"
              ["cat"; "dog"]) as (_ & Hfile & _ & _ & Hformat).
  - vm_compute. reflexivity.
  - reflexivity.
  - destruct Hformat as (Hlines & Hcount & _).
    + intros x Hx.
      repeat (apply elem_of_cons in Hx as [->|Hx]); [done..|].
      by apply not_elem_of_nil in Hx.
    + split_and!; [exact Hfile|exact Hlines|exact Hcount].
Defined.

(** * Further properties of the script *)

(** ** The pattern and the filter *)

Lemma skip_letters_app_newline q :
  letters_only q = true → skip_letters (q +:+ newline_str) = newline_str.
Proof.
  induction q as [|a q IH]; simpl; [done|].
  intros [-> Hq]%andb_true_iff. auto.
Qed.

Lemma at_dollar_skip_inv s :
  at_dollar (skip_letters s) = true →
  ∃ q, letters_only q = true ∧ (s = q ∨ s = q +:+ newline_str).
Proof.
  induction s as [|a s IH]; simpl.
  - intros _. exists EmptyString. auto.
  - destruct (is_lower_letter a) eqn:Ha.
    + intros (q & Hq & Hs)%IH. exists (String a q). simpl. rewrite Ha, Hq.
      split; [done|]. destruct Hs as [->| ->]; auto.
    + cbn [at_dollar]. destruct s as [|b s]; [|done].
      intros ->%Ascii.eqb_eq. exists EmptyString. auto.
Qed.

(** X1: [ALNUM.match(w)] succeeds exactly on a non-empty run of the letters
    a to z, optionally followed by one newline that ends the string. *)
Theorem ALNUM_match_iff (w : string) :
  ALNUM_match w = true
  ↔ ∃ p, p ≠ EmptyString ∧ letters_only p = true
         ∧ (w = p ∨ w = p +:+ newline_str).
Proof.
  split.
  - destruct w as [|a s]; simpl; [done|].
    intros [Ha (q & Hq & Hs)%at_dollar_skip_inv]%andb_true_iff.
    exists (String a q). simpl. rewrite Ha, Hq. split; [done|]. split; [done|].
    destruct Hs as [->| ->]; auto.
  - intros (p & Hne & Hp & [->| ->]).
    + by apply letters_only_ALNUM_match.
    + destruct p as [|a q]; [done|]. simpl in *.
      apply andb_true_iff in Hp as [-> Hq].
      by rewrite skip_letters_app_newline.
Qed.

(** X2: the filter of the loop ([ALNUM] and the length test) accepts a word
    without a newline in it exactly when the word is two to twelve
    lowercase letters: both bounds are inclusive, and nothing else gets
    through. *)
Theorem passes_filter_iff_letters (w : string) :
  two_to_twelve_letters w = true
  ↔ passes_filter w = true ∧ contains newline w = false.
Proof.
  split.
  - intros Hw. split; [by apply two_to_twelve_letters_passes|].
    apply andb_true_iff in Hw as [Hl _].
    destruct (contains newline w) eqn:Hc; [|done].
    by pose proof (letters_only_contains w newline Hl Hc).
  - intros [Hp Hn]. by apply passes_filter_letters.
Qed.

(** ** [unique_lower] *)

(** X3: on input without newline characters, every word [unique_lower]
    returns is two to twelve lowercase letters, and the text written for the
    list has exactly these words as its lines, none of them twice. *)
Theorem unique_lower_words_and_lines (ws : list string) :
  (∀ w, w ∈ ws → contains newline w = false) →
  (∀ x, x ∈ unique_lower ws → two_to_twelve_letters x = true)
  ∧ file_lines (join newline_str (unique_lower ws)) = unique_lower ws
  ∧ NoDup (file_lines (join newline_str (unique_lower ws))).
Proof.
  intros Hws. split_and!.
  - intros x. by apply unique_lower_letters.
  - by apply file_lines_unique_lower.
  - rewrite file_lines_unique_lower by done. apply NoDup_unique_lower.
Qed.

Lemma unique_lower_words_and_lines_witness :
  file_lines (join newline_str (unique_lower ["Emu"; "r2d2"; "emu"; "Gnu"]))
  = unique_lower ["Emu"; "r2d2"; "emu"; "Gnu"].
Proof.
  refine (proj1 (proj2 (unique_lower_words_and_lines
                          ["Emu"; "r2d2"; "emu"; "Gnu"] _))).
  intros w Hw. repeat (apply elem_of_cons in Hw as [->|Hw]); [done..|].
  by apply not_elem_of_nil in Hw.
Defined.

(** X4: a word is in the output of [unique_lower] exactly when it passes
    the filter and is the lowercase form of some input word: nothing
    accepted is lost and nothing is made up. *)
Theorem unique_lower_elements (ws : list string) (x : string) :
  x ∈ unique_lower ws
  ↔ passes_filter x = true ∧ ∃ w, w ∈ ws ∧ lower w = x.
Proof. apply elem_of_unique_lower. Qed.

Lemma lower_char_idemp c : lower_char (lower_char c) = lower_char c.
Proof.
  unfold lower_char at 2 3. destruct (is_upper_letter c) eqn:Hc; [|by
    unfold lower_char; rewrite Hc].
  apply lower_char_letter. revert Hc. unfold is_upper_letter, is_lower_letter.
  rewrite !andb_true_iff, !Nat.leb_le. intros [H1 H2].
  rewrite nat_ascii_embedding by lia. lia.
Qed.

Lemma lower_idemp s : lower (lower s) = lower s.
Proof.
  induction s as [|a s IH]; simpl; [done|]. by rewrite lower_char_idemp, IH.
Qed.

(** X5: the output of [unique_lower] depends on the input only through its
    lowercase forms: two inputs that agree word by word up to case give the
    same output, and lowercasing the input beforehand changes nothing. *)
Theorem unique_lower_case_insensitive (ws1 ws2 : list string) :
  lower <$> ws1 = lower <$> ws2 →
  unique_lower ws1 = unique_lower ws2
  ∧ unique_lower (lower <$> ws1) = unique_lower ws1.
Proof.
  intros Heq. split.
  - by rewrite !unique_lower_spec, Heq.
  - rewrite !unique_lower_spec, <-list_fmap_compose. do 2 f_equal.
    apply list_fmap_ext. intros _ w _. apply lower_idemp.
Qed.

Lemma unique_lower_case_insensitive_witness :
  unique_lower ["Zebra"; "APPLE"; "zebra"] = unique_lower ["zebra"; "apple"; "ZEBRA"].
Proof.
  exact (proj1 (unique_lower_case_insensitive
                  ["Zebra"; "APPLE"; "zebra"] ["zebra"; "apple"; "ZEBRA"]
                  eq_refl)).
Defined.

(** X6: no two positions of the output hold words that are equal up to
    case. *)
Theorem unique_lower_distinct_up_to_case (ws : list string) (i j : nat)
    (x y : string) :
  unique_lower ws !! i = Some x → unique_lower ws !! j = Some y →
  lower x = lower y → i = j.
Proof.
  intros Hi Hj Hxy.
  assert (x = y) as ->.
  { rewrite <-(passes_filter_lower x), <-(passes_filter_lower y); [done|..].
    - eapply unique_lower_passes, list_elem_of_lookup_2, Hj.
    - eapply unique_lower_passes, list_elem_of_lookup_2, Hi. }
  eapply NoDup_lookup; [apply NoDup_unique_lower|done..].
Qed.

Lemma unique_lower_distinct_up_to_case_witness : 0 = 0.
Proof.
  exact (unique_lower_distinct_up_to_case ["Emu"; "emu"; "gnu"] 0 0 "emu" "emu"
           eq_refl eq_refl eq_refl).
Defined.

(** X7: the output is never longer than the input, and its length is the
    number of distinct lowercase forms that pass the filter. *)
Theorem unique_lower_length (ws : list string) :
  length (unique_lower ws) ≤ length ws
  ∧ length (unique_lower ws)
    = size (list_to_set (C:=gset string)
              (filter (λ w, passes_filter w = true) (lower <$> ws))).
Proof.
  split.
  - rewrite <-(length_fmap lower ws). apply sublist_length.
    rewrite unique_lower_spec.
    etrans; [apply first_occurrences_sublist|apply sublist_filter].
  - rewrite <-(size_list_to_set (C:=gset string)) by apply NoDup_unique_lower.
    f_equal. apply set_eq. intros x.
    by rewrite !elem_of_list_to_set, unique_lower_spec,
      elem_of_first_occurrences.
Qed.

(** X8: the loop keeps [seen] equal to the set of the words in [out]: after
    the loop has run over any input, starting from the empty set and the
    empty list, the set holds exactly the words of the list. *)
Theorem unique_lower_seen_invariant (ws : list string) :
  (fold_left unique_lower_step ws (∅, [])).1
  = list_to_set (fold_left unique_lower_step ws (∅, [])).2.
Proof.
  rewrite unique_lower_loop. simpl. set_solver.
Qed.

(** X9: an ASCII word with a character in it that is neither a letter nor
    a newline (a digit, a hyphen, an apostrophe, a dot, a space) never gets
    into the output: its lowercase form fails the filter and the word is
    skipped wherever it stands in the input. *)
Theorem unique_lower_rejects_non_letters (c : ascii) (w : string)
    (ws1 ws2 : list string) :
  ascii_only w = true →
  is_lower_letter c = false → is_upper_letter c = false → c ≠ newline →
  contains c w = true →
  passes_filter (lower w) = false
  ∧ unique_lower (ws1 ++ w :: ws2) = unique_lower (ws1 ++ ws2).
Proof.
  intros _ Hl Hu Hn Hc.
  assert (passes_filter (lower w) = false) as Hp.
  { unfold passes_filter.
    rewrite (ALNUM_match_excludes (lower w) c); [done..|].
    by rewrite contains_lower. }
  split; [done|]. by apply unique_lower_skip.
Qed.

Lemma unique_lower_rejects_non_letters_witness :
  unique_lower (["gnu"] ++ "well-off" :: ["emu"]) = unique_lower (["gnu"] ++ ["emu"]).
Proof.
  refine (proj2 (unique_lower_rejects_non_letters "-" "well-off" ["gnu"] ["emu"]
                   eq_refl eq_refl eq_refl _ eq_refl)).
  discriminate.
Defined.

(** ** The collectors *)

(** X10: when both traversals complete, [collect_adjectives] returns a list
    whose words are exactly the lowercase candidates that pass the filter,
    taken from the lemmas of the plain adjectives and of the satellites
    alike. *)
Theorem collect_adjectives_elements `{SetIteration} (wn : corpus)
    (adj sat : list synset) :
  all_synsets wn ADJ = Ok adj → all_synsets wn ADJ_SAT = Ok sat →
  ∃ adjectives,
    collect_adjectives wn = Ok adjectives
    ∧ ∀ x, x ∈ adjectives
           ↔ passes_filter x = true
             ∧ ∃ syn lemma, (syn ∈ adj ∨ syn ∈ sat)
                            ∧ lemma ∈ lemma_names syn
                            ∧ lower (replace_underscore lemma) = x.
Proof.
  intros Ha Hs. eexists. split; [by apply collect_adjectives_ok|].
  intros x. rewrite elem_of_unique_lower_traverse.
  setoid_rewrite elem_of_app. setoid_rewrite elem_of_candidates.
  naive_solver.
Qed.

Lemma collect_adjectives_elements_witness :
  ∃ adjectives,
    @collect_adjectives reverse_order
      (corpus_of [Synset ["Sad"; "well_off"]] [Synset ["glad"]] []) = Ok adjectives
    ∧ ∀ x, x ∈ adjectives
           ↔ passes_filter x = true
             ∧ ∃ syn lemma,
                 (syn ∈ [Synset ["Sad"; "well_off"]] ∨ syn ∈ [Synset ["glad"]])
                 ∧ lemma ∈ lemma_names syn
                 ∧ lower (replace_underscore lemma) = x.
Proof.
  exact (@collect_adjectives_elements reverse_order
           (corpus_of [Synset ["Sad"; "well_off"]] [Synset ["glad"]] [])
           [Synset ["Sad"; "well_off"]] [Synset ["glad"]] eq_refl eq_refl).
Defined.

(** X11: when the traversal completes, [collect_nouns] returns a list whose
    words are exactly the lowercase candidates that pass the filter, taken
    from the lemmas of the noun groups. *)
Theorem collect_nouns_elements `{SetIteration} (wn : corpus)
    (ss : list synset) :
  all_synsets wn NOUN = Ok ss →
  ∃ nouns,
    collect_nouns wn = Ok nouns
    ∧ ∀ x, x ∈ nouns
           ↔ passes_filter x = true
             ∧ ∃ syn lemma, syn ∈ ss ∧ lemma ∈ lemma_names syn
                            ∧ lower (replace_underscore lemma) = x.
Proof.
  intros Hn. eexists. split; [by apply collect_nouns_ok|].
  intros x. rewrite elem_of_unique_lower_traverse.
  setoid_rewrite elem_of_candidates. naive_solver.
Qed.

Lemma collect_nouns_elements_witness :
  ∃ nouns,
    @collect_nouns insertion_order
      (corpus_of [] [] [Synset ["Dog"; "domestic_dog"]]) = Ok nouns
    ∧ ∀ x, x ∈ nouns
           ↔ passes_filter x = true
             ∧ ∃ syn lemma, syn ∈ [Synset ["Dog"; "domestic_dog"]]
                            ∧ lemma ∈ lemma_names syn
                            ∧ lower (replace_underscore lemma) = x.
Proof.
  exact (@collect_nouns_elements insertion_order
           (corpus_of [] [] [Synset ["Dog"; "domestic_dog"]])
           [Synset ["Dog"; "domestic_dog"]] eq_refl).
Defined.

(** X12: [collect_adjectives] raises exactly when one of its two traversals
    raises, and then with the exception of the first that does, the plain
    adjectives coming before the satellites; [collect_nouns] raises exactly
    when the traversal of the nouns does. *)
Theorem collectors_raise `{SetIteration} (wn : corpus) (x : exn) :
  (collect_adjectives wn = Raise x
   ↔ all_synsets wn ADJ = Raise x
     ∨ ((∃ adj, all_synsets wn ADJ = Ok adj) ∧ all_synsets wn ADJ_SAT = Raise x))
  ∧ (collect_nouns wn = Raise x ↔ all_synsets wn NOUN = Raise x).
Proof.
  unfold collect_adjectives, collect_nouns. split.
  - destruct (all_synsets wn ADJ) as [adj|y]; simpl.
    + destruct (all_synsets wn ADJ_SAT) as [sat|y]; simpl; naive_solver.
    + naive_solver.
  - destruct (all_synsets wn NOUN) as [ss|y]; simpl; naive_solver.
Qed.

(** X13: which group a lemma stands under makes no difference to the words
    of the adjective list: a corpus with the plain adjectives and the
    satellites exchanged gives a permutation of the same list. *)
Theorem collect_adjectives_swap (SI1 SI2 : SetIteration) (wn1 wn2 : corpus)
    (adj sat : list synset) :
  all_synsets wn1 ADJ = Ok adj → all_synsets wn1 ADJ_SAT = Ok sat →
  all_synsets wn2 ADJ = Ok sat → all_synsets wn2 ADJ_SAT = Ok adj →
  ∃ l1 l2,
    @collect_adjectives SI1 wn1 = Ok l1 ∧ @collect_adjectives SI2 wn2 = Ok l2
    ∧ l1 ≡ₚ l2.
Proof.
  intros H1 H2 H3 H4. do 2 eexists.
  split; [by apply collect_adjectives_ok|].
  split; [by apply collect_adjectives_ok|].
  apply unique_lower_Permutation. intros x.
  rewrite !traverse_elem, !elem_of_app. naive_solver.
Qed.

Lemma collect_adjectives_swap_witness :
  ∃ l1 l2,
    @collect_adjectives insertion_order
      (corpus_of [Synset ["sad"]] [Synset ["glad"]] []) = Ok l1
    ∧ @collect_adjectives insertion_order
        (corpus_of [Synset ["glad"]] [Synset ["sad"]] []) = Ok l2
    ∧ l1 ≡ₚ l2.
Proof.
  exact (collect_adjectives_swap insertion_order insertion_order
           (corpus_of [Synset ["sad"]] [Synset ["glad"]] [])
           (corpus_of [Synset ["glad"]] [Synset ["sad"]] [])
           [Synset ["sad"]] [Synset ["glad"]]
           eq_refl eq_refl eq_refl eq_refl).
Defined.

(** ** [load_wordnet] *)

(** X14: [load_wordnet] succeeds exactly when the probe succeeds, or the
    probe raises [LookupError] and both downloads succeed.  It raises what
    the probe raises when that is not a [LookupError], and otherwise what
    the first failing download raises. *)
Theorem load_wordnet_result (e : env) (x : exn) :
  (load_wordnet e = Ok ()
   ↔ synsets (wn e) "dog" = Ok ()
     ∨ (synsets (wn e) "dog" = Raise LookupError
        ∧ nltk_download e "wordnet" = Ok ()
        ∧ nltk_download e "omw-1.4" = Ok ()))
  ∧ (load_wordnet e = Raise x
     ↔ (synsets (wn e) "dog" = Raise x ∧ x ≠ LookupError)
       ∨ (synsets (wn e) "dog" = Raise LookupError
          ∧ (nltk_download e "wordnet" = Raise x
             ∨ (nltk_download e "wordnet" = Ok ()
                ∧ nltk_download e "omw-1.4" = Raise x)))).
Proof.
  unfold load_wordnet.
  destruct (synsets (wn e) "dog") as [[]|[]]; simpl;
    try destruct (nltk_download e "wordnet") as [[]|y]; simpl;
    try destruct (nltk_download e "omw-1.4") as [[]|z]; simpl;
    naive_solver.
Qed.

(** ** The main program *)

(** X15: the list [unique_lower] returns has no element twice, for every
    input, and so has every list [collect_adjectives] or [collect_nouns]
    returns. *)
Theorem word_lists_NoDup `{SetIteration} (ws : list string) (wn : corpus) :
  NoDup (unique_lower ws)
  ∧ match collect_adjectives wn with
    | Ok adjectives => NoDup adjectives
    | Raise _ => True
    end
  ∧ match collect_nouns wn with
    | Ok nouns => NoDup nouns
    | Raise _ => True
    end.
Proof.
  split_and!.
  - apply NoDup_unique_lower.
  - unfold collect_adjectives.
    destruct (all_synsets wn ADJ); simpl; [|done].
    destruct (all_synsets wn ADJ_SAT); simpl; [|done].
    apply NoDup_unique_lower.
  - unfold collect_nouns.
    destruct (all_synsets wn NOUN); simpl; [|done].
    apply NoDup_unique_lower.
Qed.




(** X18: the two files are overwritten in full.  When a run has succeeded
    and [main] is run again in the same environment (the corpus reader and
    the operating system answer as before), in whatever order the second
    run iterates its candidate sets, the second run succeeds, leaves the
    same directories, and leaves the files it would have left had the
    first run not taken place.  When the second run iterates the sets in
    the same order as the first, it leaves the files as the first run left
    them. *)
Theorem main_rerun (SI1 SI2 : SetIteration) (e : env) (w : world) :
  (@main SI1 e w).1 = Ok () →
  (@main SI2 e (@main SI1 e w).2).1 = Ok ()
  ∧ files (@main SI2 e (@main SI1 e w).2).2 = files (@main SI2 e w).2
  ∧ dirs (@main SI2 e (@main SI1 e w).2).2 = dirs (@main SI1 e w).2
  ∧ ((∀ s, @traverse SI1 s = @traverse SI2 s) →
     files (@main SI2 e (@main SI1 e w).2).2 = files (@main SI1 e w).2).
Proof.
  rewrite !main_outcome. unfold collect_adjectives, collect_nouns.
  destruct (load_wordnet e) as [[]|x]; [|done].
  destruct (all_synsets (wn e) ADJ) as [adj|x]; simpl; [|done].
  destruct (all_synsets (wn e) ADJ_SAT) as [sat|x]; simpl; [|done].
  destruct (all_synsets (wn e) NOUN) as [ss|x]; simpl; [|done].
  destruct (mkdir_fault e) as [x|]; [done|].
  destruct (write_fault e adjectives_txt); [|done..].
  destruct (write_fault e nouns_txt); [|done..].
  intros _. cbn [fst snd files dirs]. split_and!.
  - done.
  - apply map_eq. intros k. rewrite !lookup_insert. by repeat case_decide.
  - set_solver.
  - intros Ht. rewrite !Ht.
    apply map_eq. intros k. rewrite !lookup_insert. by repeat case_decide.
Qed.

Lemma main_rerun_witness :
  let e := quiet_env (corpus_of [Synset ["glad"]] [] [Synset ["zebra"; "apple"]]) in
  files (@main reverse_order e (@main insertion_order e empty_world).2).2
  = files (@main reverse_order e empty_world).2
  ∧ files (@main insertion_order e (@main insertion_order e empty_world).2).2
    = files (@main insertion_order e empty_world).2.
Proof.
  split.
  - exact (proj1 (proj2 (main_rerun insertion_order reverse_order
             (quiet_env (corpus_of [Synset ["glad"]] []
                                   [Synset ["zebra"; "apple"]]))
             empty_world eq_refl))).
  - exact (proj2 (proj2 (proj2 (main_rerun insertion_order insertion_order
             (quiet_env (corpus_of [Synset ["glad"]] []
                                   [Synset ["zebra"; "apple"]]))
             empty_world eq_refl))) (λ s, eq_refl)).
Defined.

Lemma length_append (a b : string) :
  String.length (a +:+ b) = String.length a + String.length b.
Proof. induction a as [|c a IH]; simpl; [done|]. by rewrite IH. Qed.

(** X19: the text written for a word list has as many characters as its
    words have together, plus one separator between each two neighbours. *)
Theorem join_length (ws : list string) :
  String.length (join newline_str ws)
  = sum_list_with String.length ws + (length ws - 1).
Proof.
  induction ws as [|x l IH]; [done|].
  destruct l as [|y l]; [simpl; lia|].
  change (join newline_str (x :: y :: l))
    with (x +:+ newline_str +:+ join newline_str (y :: l)).
  rewrite !length_append, IH. simpl. lia.
Qed.

(** X20: two runs on the same corpus that traverse the candidate sets in
    different orders fail alike or report the same counts and write files
    of the same size. *)
Theorem counts_any_order (SI1 SI2 : SetIteration) (wn : corpus) :
  match @collect_adjectives SI1 wn, @collect_adjectives SI2 wn with
  | Ok l1, Ok l2 =>
      length l1 = length l2
      ∧ String.length (join newline_str l1) = String.length (join newline_str l2)
  | Raise x1, Raise x2 => x1 = x2
  | _, _ => False
  end
  ∧ match @collect_nouns SI1 wn, @collect_nouns SI2 wn with
    | Ok l1, Ok l2 =>
        length l1 = length l2
        ∧ String.length (join newline_str l1) = String.length (join newline_str l2)
    | Raise x1, Raise x2 => x1 = x2
    | _, _ => False
    end.
Proof.
  assert (∀ s1 s2 : pyset, (∀ x, x ∈ s1 ↔ x ∈ s2) →
    length (unique_lower (@traverse SI1 s1))
    = length (unique_lower (@traverse SI2 s2))
    ∧ String.length (join newline_str (unique_lower (@traverse SI1 s1)))
      = String.length (join newline_str (unique_lower (@traverse SI2 s2))))
    as Hperm.
  { intros s1 s2 Hs.
    assert (unique_lower (@traverse SI1 s1) ≡ₚ unique_lower (@traverse SI2 s2))
      as Hp.
    { apply unique_lower_Permutation. intros x. by rewrite !traverse_elem. }
    split; [by rewrite Hp|]. rewrite !join_length. by rewrite Hp. }
  unfold collect_adjectives, collect_nouns. split.
  - destruct (all_synsets wn ADJ); simpl; [|done].
    destruct (all_synsets wn ADJ_SAT); simpl; [|done]. by apply Hperm.
  - destruct (all_synsets wn NOUN); simpl; [|done]. by apply Hperm.
Qed.

(** ** From the corpus to the lines of the files *)

Lemma contains_replace_other c s :
  c ≠ "_"%char → c ≠ " "%char →
  contains c (replace_underscore s) = contains c s.
Proof.
  intros H1 H2. induction s as [|a s IH]; simpl; [done|]. rewrite IH.
  destruct (Ascii.eqb_spec a "_") as [->|Ha]; [|done].
  f_equal. transitivity false; [|symmetry]; by apply Ascii.eqb_neq.
Qed.

Lemma candidates_no_newline ss :
  (∀ syn lemma, syn ∈ ss → lemma ∈ lemma_names syn →
                contains newline lemma = false) →
  ∀ w, w ∈ candidates ss → contains newline w = false.
Proof.
  intros Hss w (syn & lemma & Hsyn & Hl & ->)%elem_of_candidates.
  rewrite contains_replace_other by done. eauto.
Qed.

Lemma lines_of_traversal `{SetIteration} (s : pyset) :
  (∀ w, w ∈ s → contains newline w = false) →
  file_lines (join newline_str (unique_lower (traverse s)))
  = unique_lower (traverse s)
  ∧ ∀ x, x ∈ unique_lower (traverse s)
         ↔ two_to_twelve_letters x = true ∧ ∃ w, w ∈ s ∧ lower w = x.
Proof.
  intros Hs. split.
  - apply file_lines_unique_lower. intros w Hw.
    apply Hs. by apply traverse_elem.
  - intros x. rewrite elem_of_unique_lower_traverse. split.
    + intros (Hp & w & Hw & <-). split; [|by eauto].
      apply passes_filter_letters; [done|]. by apply lower_no_newline, Hs.
    + intros (Hx & w & Hw & <-). split; [|by eauto].
      by apply two_to_twelve_letters_passes.
Qed.

(** X21: end to end for the nouns.  When the run succeeds on a corpus
    whose noun lemmas have no newline in them, the lines of [nouns.txt] are
    pairwise distinct, and a string is one of them exactly when it is two
    to twelve lowercase letters and is the lowercase form of a noun lemma
    (with underscores turned into spaces, which a line cannot contain). *)
Theorem nouns_file_lines `{SetIteration} (e : env) (w : world)
    (ss : list synset) :
  (main e w).1 = Ok () →
  all_synsets (wn e) NOUN = Ok ss →
  (∀ syn lemma, syn ∈ ss → lemma ∈ lemma_names syn →
                contains newline lemma = false) →
  ∃ content,
    files (main e w).2 !! nouns_txt = Some content
    ∧ NoDup (file_lines content)
    ∧ ∀ x, x ∈ file_lines content
           ↔ two_to_twelve_letters x = true
             ∧ ∃ syn lemma, syn ∈ ss ∧ lemma ∈ lemma_names syn
                            ∧ lower (replace_underscore lemma) = x.
Proof.
  intros Hok Hn Hss. pose proof (main_success_files e w) as Hfiles.
  destruct (main e w) as [[[]|x] w'] eqn:Hmain; [|done]. cbn [snd].
  destruct Hfiles as (adjectives & nouns & _ & Hnouns & _ & Hw).
  rewrite (collect_nouns_ok _ _ Hn) in Hnouns. injection Hnouns as <-.
  exists (join newline_str (unique_lower (traverse (candidates ss)))).
  destruct (lines_of_traversal (candidates ss)) as [Hlines Hel];
    [by apply candidates_no_newline|].
  rewrite Hlines. split_and!; [done|apply NoDup_unique_lower|].
  intros x. rewrite Hel. setoid_rewrite elem_of_candidates. naive_solver.
Qed.

Lemma nouns_file_lines_witness :
  ∃ content,
    files (@main reverse_order
             (quiet_env (corpus_of [] [] [Synset ["Dog"; "domestic_dog"]]))
             empty_world).2 !! nouns_txt = Some content
    ∧ NoDup (file_lines content)
    ∧ ∀ x, x ∈ file_lines content
           ↔ two_to_twelve_letters x = true
             ∧ ∃ syn lemma, syn ∈ [Synset ["Dog"; "domestic_dog"]]
                            ∧ lemma ∈ lemma_names syn
                            ∧ lower (replace_underscore lemma) = x.
Proof.
  apply (@nouns_file_lines reverse_order
           (quiet_env (corpus_of [] [] [Synset ["Dog"; "domestic_dog"]]))
           empty_world [Synset ["Dog"; "domestic_dog"]] eq_refl eq_refl).
  intros syn lemma Hsyn Hl.
  apply list_elem_of_singleton in Hsyn as ->. simpl in Hl.
  repeat (apply elem_of_cons in Hl as [->|Hl]); [done..|].
  by apply not_elem_of_nil in Hl.
Defined.

(** X22: end to end for the adjectives.  When the run succeeds on a corpus
    whose adjective and satellite lemmas have no newline in them, the lines
    of [adjectives.txt] are pairwise distinct, and a string is one of them
    exactly when it is two to twelve lowercase letters and is the lowercase
    form of a lemma of either group. *)
Theorem adjectives_file_lines `{SetIteration} (e : env) (w : world)
    (adj sat : list synset) :
  (main e w).1 = Ok () →
  all_synsets (wn e) ADJ = Ok adj →
  all_synsets (wn e) ADJ_SAT = Ok sat →
  (∀ syn lemma, syn ∈ adj ++ sat → lemma ∈ lemma_names syn →
                contains newline lemma = false) →
  ∃ content,
    files (main e w).2 !! adjectives_txt = Some content
    ∧ NoDup (file_lines content)
    ∧ ∀ x, x ∈ file_lines content
           ↔ two_to_twelve_letters x = true
             ∧ ∃ syn lemma, syn ∈ adj ++ sat ∧ lemma ∈ lemma_names syn
                            ∧ lower (replace_underscore lemma) = x.
Proof.
  intros Hok Ha Hs Hss. pose proof (main_success_files e w) as Hfiles.
  destruct (main e w) as [[[]|x] w'] eqn:Hmain; [|done]. cbn [snd].
  destruct Hfiles as (adjectives & nouns & Hadj & _ & Hw & _).
  rewrite (collect_adjectives_ok _ _ _ Ha Hs) in Hadj. injection Hadj as <-.
  eexists. split; [exact Hw|].
  destruct (lines_of_traversal (candidates adj ++ candidates sat))
    as [Hlines Hel].
  { intros x [Hx|Hx]%elem_of_app;
      (eapply candidates_no_newline; [|exact Hx]);
      intros syn lemma Hsyn; apply Hss, elem_of_app; auto. }
  rewrite Hlines. split; [apply NoDup_unique_lower|].
  intros x. rewrite Hel. setoid_rewrite elem_of_app.
  setoid_rewrite elem_of_candidates. naive_solver.
Qed.

Lemma adjectives_file_lines_witness :
  ∃ content,
    files (@main insertion_order
             (quiet_env (corpus_of [Synset ["Sad"]] [Synset ["well_off"; "glad"]] []))
             empty_world).2 !! adjectives_txt = Some content
    ∧ NoDup (file_lines content)
    ∧ ∀ x, x ∈ file_lines content
           ↔ two_to_twelve_letters x = true
             ∧ ∃ syn lemma,
                 syn ∈ [Synset ["Sad"]] ++ [Synset ["well_off"; "glad"]]
                 ∧ lemma ∈ lemma_names syn
                 ∧ lower (replace_underscore lemma) = x.
Proof.
  apply (@adjectives_file_lines insertion_order
           (quiet_env (corpus_of [Synset ["Sad"]] [Synset ["well_off"; "glad"]] []))
           empty_world [Synset ["Sad"]] [Synset ["well_off"; "glad"]]
           eq_refl eq_refl eq_refl).
  intros syn lemma Hsyn Hl. simpl in Hsyn.
  repeat (apply elem_of_cons in Hsyn as [->|Hsyn]); simpl in Hl;
    [repeat (apply elem_of_cons in Hl as [->|Hl]);
       [done..|by apply not_elem_of_nil in Hl]..|].
  by apply not_elem_of_nil in Hsyn.
Defined.
